(** * impactlib.load: the repository data loader

    A shallow embedding of [src/impactlib/load.py] and the properties of
    [load_repo_data] stated in the specification.

    The module keeps one global, [cached_data], and one function,
    [load_repo_data].  Its collaborators ([config.get_repos],
    [urllib2.urlopen], [response.read], [json.loads]) are not part of the
    module: they are taken as an environment, and every call the function
    makes to one of them is recorded, in order, in a trace. *)

From Stdlib Require Import Ascii String QArith Qcanon.
From stdpp Require Import base option list strings countable gmap fin_maps.

Set Warnings "-register-all".

Local Open Scope Z_scope.
Local Open Scope string_scope.
Local Open Scope list_scope.
Local Open Scope nat_scope.

(** ** Python values *)

(** A Python [float] as [json.loads] builds it.  A finite value is stood for
    by the rational it denotes; the values that are no rational have a
    constructor of their own. *)
Inductive pyfloat :=
| FNaN
| FInfinity (negative : bool)
| FNegZero
| FFinite (q : Qc).

(** What [json.loads] can return: [None], a [bool], an [int]/[long], a
    [float], a [unicode] string (one character per element), a [list], or a
    [dict] with [unicode] keys.  The pairs of a [PyDict] are listed in the
    iteration order of the dict. *)
Inductive pyvalue :=
| PyNone
| PyBool (b : bool)
| PyInt (n : Z)
| PyFloat (f : pyfloat)
| PyUnicode (s : string)
| PyList (l : list pyvalue)
| PyDict (d : list (string * pyvalue)).

(** Dictionary keys, up to Python's [==]/[hash]: [True == 1 == 1.0] is one
    key, and so is [0 == False == 0.0 == -0.0]. *)
Inductive pykey :=
| KNone
| KNum (n : Z)
| KFloat (f : pyfloat)
| KStr (s : string).

Global Instance pyfloat_eq_dec : EqDecision pyfloat.
Proof. solve_decision. Defined.

Global Instance pykey_eq_dec : EqDecision pykey.
Proof. solve_decision. Defined.

Definition pyfloat_code (f : pyfloat) : bool + (unit + (unit + Qc)) :=
  match f with
  | FInfinity b => inl b
  | FNaN => inr (inl ())
  | FNegZero => inr (inr (inl ()))
  | FFinite q => inr (inr (inr q))
  end.

Definition pyfloat_decode (c : bool + (unit + (unit + Qc))) : pyfloat :=
  match c with
  | inl b => FInfinity b
  | inr (inl _) => FNaN
  | inr (inr (inl _)) => FNegZero
  | inr (inr (inr q)) => FFinite q
  end.

Global Instance pyfloat_countable : Countable pyfloat.
Proof.
  refine (inj_countable' pyfloat_code pyfloat_decode _).
  intros []; reflexivity.
Defined.

Definition pykey_code (k : pykey) : unit + (Z + (pyfloat + string)) :=
  match k with
  | KNone => inl ()
  | KNum n => inr (inl n)
  | KFloat f => inr (inr (inl f))
  | KStr s => inr (inr (inr s))
  end.

Definition pykey_decode (c : unit + (Z + (pyfloat + string))) : pykey :=
  match c with
  | inl _ => KNone
  | inr (inl n) => KNum n
  | inr (inr (inl f)) => KFloat f
  | inr (inr (inr s)) => KStr s
  end.

Global Instance pykey_countable : Countable pykey.
Proof.
  refine (inj_countable' pykey_code pykey_decode _).
  intros []; reflexivity.
Defined.

(** The accumulator [ret] and the cache: a Python [dict], observed through
    its lookups. *)
Abbreviation pydict := (gmap pykey pyvalue).

(** ** Exceptions and results *)

(** The exceptions that can leave [load_repo_data], named by where they are
    raised: [TransportError] by [urllib2.urlopen] or [response.read];
    [ParseError] is the [ValueError] of [json.loads]; [TypeError] and
    [ValueError] are the two that [dict.update] raises. *)
Inductive exn :=
| TransportError (reason : string)
| ParseError
| TypeError
| ValueError.

Inductive result (A : Type) :=
| Ok (a : A)
| Raise (x : exn).
Global Arguments Ok {A} a.
Global Arguments Raise {A} x.

(** ** [dict.update] *)

(** [hash(key)]: lists and dicts are unhashable. *)
Definition hash_key (v : pyvalue) : option pykey :=
  match v with
  | PyNone => Some KNone
  | PyBool b => Some (KNum (Z.b2z b))
  | PyInt n => Some (KNum n)
  | PyFloat FNegZero => Some (KNum 0)
  | PyFloat (FFinite q) =>
      Some (if Pos.eqb (Qden q) 1 then KNum (Qnum q) else KFloat (FFinite q))
  | PyFloat f => Some (KFloat f)
  | PyUnicode s => Some (KStr s)
  | PyList _ => None
  | PyDict _ => None
  end.

(** The elements an iteration over the value yields; [None] when the value
    is not iterable.  A string yields its characters, a dict its keys. *)
Definition py_iter (v : pyvalue) : option (list pyvalue) :=
  match v with
  | PyList l => Some l
  | PyUnicode s =>
      Some (map (fun c => PyUnicode (String c EmptyString)) (String.list_ascii_of_string s))
  | PyDict d => Some (map (fun kv => PyUnicode (fst kv)) d)
  | _ => None
  end.

(** One element of an update sequence: it must be iterable, of length two,
    with a hashable first component. *)
Definition update_item (ret : pydict) (item : pyvalue) : result pydict :=
  match py_iter item with
  | None => Raise TypeError
  | Some [k; v] =>
      match hash_key k with
      | Some key => Ok (<[key := v]> ret)
      | None => Raise TypeError
      end
  | Some _ => Raise ValueError
  end.

Fixpoint update_from_seq (ret : pydict) (items : list pyvalue) : result pydict :=
  match items with
  | [] => Ok ret
  | item :: rest =>
      match update_item ret item with
      | Ok ret' => update_from_seq ret' rest
      | Raise x => Raise x
      end
  end.

(** [ret.update(data)] with one positional argument: an argument with a
    [keys] method (here: a dict) is merged key by key; anything else is
    iterated as a sequence of pairs. *)
Definition dict_update (ret : pydict) (data : pyvalue) : result pydict :=
  match data with
  | PyDict d => Ok (foldl (fun m kv => <[KStr (fst kv) := snd kv]> m) ret d)
  | _ =>
      match py_iter data with
      | None => Raise TypeError
      | Some items => update_from_seq ret items
      end
  end.

(** ** The environment of a call *)

(** What [response.read()] does: fail, or deliver the whole body. *)
Inductive read_outcome :=
| ReadFails (reason : string)
| Body (data : string).

(** What [urllib2.urlopen] does: fail, or return a response. *)
Inductive open_outcome :=
| OpenFails (reason : string)
| Opened (r : read_outcome).

(** The world as one call of [load_repo_data] meets it: the list
    [config.get_repos()] returns, and the network's answer to the request
    made at position [i] of the loop for [url]. *)
Record env := {
  get_repos : list string;
  urlopen_at : nat -> string -> open_outcome
}.

Record response := {
  resp_url : string;
  resp_read : read_outcome
}.

(** The calls [load_repo_data] makes to its collaborators.  The flag tells
    whether the call returned ([true]) or raised ([false]). *)
Inductive event :=
| EvGetRepos
| EvUrlopen (url : string) (ok : bool)
| EvRead (url : string) (ok : bool)
| EvLoads (body : string) (ok : bool)
| EvClose (url : string).

Global Instance event_eq_dec : EqDecision event.
Proof. solve_decision. Defined.

(** ** The monad of the module: the global, exceptions, and the trace *)

Definition M (A : Type) : Type :=
  option pydict -> result A * option pydict * list event.

Definition m_ret {A} (a : A) : M A := fun c => (Ok a, c, []).

Definition m_bind {A B} (m : M A) (f : A -> M B) : M B :=
  fun c =>
    match m c with
    | (Ok a, c', t) => let '(r, c'', t') := f a c' in (r, c'', t ++ t')
    | (Raise x, c', t) => (Raise x, c', t)
    end.

Notation "'let*' x ':=' m 'in' k" := (m_bind m (fun x => k))
  (at level 10, x name, m at level 100, k at level 200).

Definition m_raise {A} (x : exn) : M A := fun c => (Raise x, c, []).
Definition emit (ev : event) : M unit := fun c => (Ok tt, c, [ev]).
Definition read_cached_data : M (option pydict) := fun c => (Ok c, c, []).
Definition write_cached_data (d : pydict) : M unit := fun _ => (Ok tt, Some d, []).

Definition m_lift {A} (r : result A) : M A := fun c => (r, c, []).

(** ** The module *)

Section Loader.

(** [json.loads], the JSON codec: [None] when it raises. *)
Variable json_loads : string -> option pyvalue.

(** [cached_data = None] at import time. *)
Definition process_start : option pydict := None.

Definition config_get_repos (e : env) : M (list string) :=
  let* _ := emit EvGetRepos in
  m_ret (get_repos e).

(** [urllib2.urlopen(urllib2.Request(url))], for the request at position
    [i]. *)
Definition urlopen (e : env) (i : nat) (url : string) : M response :=
  match urlopen_at e i url with
  | OpenFails reason =>
      let* _ := emit (EvUrlopen url false) in
      m_raise (TransportError reason)
  | Opened r =>
      let* _ := emit (EvUrlopen url true) in
      m_ret {| resp_url := url; resp_read := r |}
  end.

(** [response.read()] *)
Definition read (response : response) : M string :=
  match resp_read response with
  | ReadFails reason =>
      let* _ := emit (EvRead (resp_url response) false) in
      m_raise (TransportError reason)
  | Body data =>
      let* _ := emit (EvRead (resp_url response) true) in
      m_ret data
  end.

(** [json.loads(body)] *)
Definition loads (body : string) : M pyvalue :=
  match json_loads body with
  | None =>
      let* _ := emit (EvLoads body false) in
      m_raise ParseError
  | Some data =>
      let* _ := emit (EvLoads body true) in
      m_ret data
  end.

(** The loop [for url in urls: ...], entered at position [i] with the
    accumulator [ret]. *)
Fixpoint for_urls (e : env) (urls : list string) (i : nat) (ret : pydict)
  : M pydict :=
  match urls with
  | [] => m_ret ret
  | url :: rest =>
      let* response := urlopen e i url in
      let* body := read response in
      let* data := loads body in
      let* ret' := m_lift (dict_update ret data) in
      for_urls e rest (S i) ret'
  end.

Definition load_repo_data (e : env) : M pydict :=
  let* cached := read_cached_data in
  match cached with
  | Some data => m_ret data
  | None =>
      let* urls := config_get_repos e in
      let* ret := for_urls e urls 0 ∅ in
      let* _ := write_cached_data ret in
      m_ret ret
  end.

(** A process: successive calls of [load_repo_data], each in the world it
    finds.  For every call: what it returned or raised, the cache after
    it, and the calls it made to its collaborators. *)
Fixpoint run_calls (es : list env) (cached_data : option pydict)
  : list (result pydict * option pydict * list event) :=
  match es with
  | [] => []
  | e :: es' =>
      let r := load_repo_data e cached_data in
      r :: run_calls es' (snd (fst r))
  end.

End Loader.

(** ** The vocabulary of the specification *)

(** The mapping a parsed JSON object stands for (were a key listed twice,
    its last pair would count). *)
Definition as_mapping (d : list (string * pyvalue)) : pydict :=
  list_to_map (reverse (map (fun kv => (KStr (fst kv), snd kv)) d)).

(** Merging as the specification words it: start from the empty mapping and
    merge each document in list order, the later document winning on a
    shared key ([∪] on maps prefers its left operand). *)
Definition merge_in_order (docs : list (list (string * pyvalue))) : pydict :=
  foldl (fun acc d => as_mapping d ∪ acc) ∅ docs.

(** [ret.update(v)] for each value in turn, stopping at the first that
    raises. *)
Fixpoint update_all (ret : pydict) (vs : list pyvalue) : result pydict :=
  match vs with
  | [] => Ok ret
  | v :: vs' =>
      match dict_update ret v with
      | Ok ret' => update_all ret' vs'
      | Raise x => Raise x
      end
  end.

(** The URLs requested in a trace, in order. *)
Fixpoint requested (t : list event) : list string :=
  match t with
  | [] => []
  | EvUrlopen url _ :: t' => url :: requested t'
  | _ :: t' => requested t'
  end.

(** The network part of a trace. *)
Definition is_network (ev : event) : bool :=
  match ev with
  | EvUrlopen _ _ | EvRead _ _ => true
  | _ => false
  end.

Definition network (t : list event) : list event := List.filter is_network t.

(** A GET that went through: the request, then the whole body. *)
Definition fetched (url : string) : list event :=
  [EvUrlopen url true; EvRead url true].

(** The fetch or the parse of [url] at position [i] fails. *)
Definition fails_at (json_loads : string -> option pyvalue) (e : env)
    (i : nat) (url : string) : Prop :=
  match urlopen_at e i url with
  | OpenFails _ => True
  | Opened (ReadFails _) => True
  | Opened (Body b) => json_loads b = None
  end.

(** A call to the transport that raised; a call to the codec that raised. *)
Definition get_failed (ev : event) : bool :=
  match ev with
  | EvUrlopen _ false | EvRead _ false => true
  | _ => false
  end.

Definition loads_failed (ev : event) : bool :=
  match ev with
  | EvLoads _ false => true
  | _ => false
  end.

Definition failed (ev : event) : bool := get_failed ev || loads_failed ev.

Definition is_transport_error {A} (r : result A) : bool :=
  match r with
  | Raise (TransportError _) => true
  | _ => false
  end.

Definition is_parse_error {A} (r : result A) : bool :=
  match r with
  | Raise ParseError => true
  | _ => false
  end.

(** Every response that was read is closed later in the trace. *)
Fixpoint closes_after_read (t : list event) : bool :=
  match t with
  | [] => true
  | EvRead url _ :: t' =>
      bool_decide (EvClose url ∈ t') && closes_after_read t'
  | _ :: t' => closes_after_read t'
  end.

(** ** Worlds for the examples of the specification *)

Definition dq : string := String "034"%char EmptyString.

(** The text [{"x": 1}]. *)
Definition body_x1 : string := "{" +:+ dq +:+ "x" +:+ dq +:+ ": 1}".

(** The text [{"x": 2, "y": 3}]. *)
Definition body_x2_y3 : string :=
  "{" +:+ dq +:+ "x" +:+ dq +:+ ": 2, " +:+ dq +:+ "y" +:+ dq +:+ ": 3}".

(** The text ["ab"], a JSON string. *)
Definition body_ab : string := dq +:+ "ab" +:+ dq.

(** [json.loads] on the bodies of the examples; the stand-in knows no other
    text and rejects it.  (CPython 2 iterates the second dict as [y], [x];
    the order of the pairs plays no part in the runs below.) *)
Definition demo_loads (body : string) : option pyvalue :=
  if bool_decide (body = body_x1) then Some (PyDict [("x", PyInt 1)])
  else if bool_decide (body = body_x2_y3) then
    Some (PyDict [("y", PyInt 3); ("x", PyInt 2)])
  else if bool_decide (body = "42") then Some (PyInt 42)
  else if bool_decide (body = "[]") then Some (PyList [])
  else if bool_decide (body = body_ab) then Some (PyUnicode "ab")
  else None.

(** A world that answers each URL by the table, the same way at every
    position, and refuses the connection for a URL that is not in it. *)
Definition serve (urls : list string) (table : list (string * open_outcome))
  : env :=
  {| get_repos := urls;
     urlopen_at := fun _ url =>
       match list_find (fun kv => bool_decide (fst kv = url)) table with
       | Some (_, (_, o)) => o
       | None => OpenFails "connection refused"
       end |}.

Definition env_A_B : env :=
  serve ["A"; "B"]
    [("A", Opened (Body body_x1)); ("B", Opened (Body body_x2_y3))].

Definition env_B_down : env :=
  serve ["A"; "B"] [("A", Opened (Body body_x1))].

Definition env_not_json : env :=
  serve ["A"] [("A", Opened (Body "{not json"))].

Definition env_no_repos : env := serve [] [].

Definition env_number : env :=
  serve ["A"; "B"]
    [("A", Opened (Body body_x1)); ("B", Opened (Body "42"))].

Definition env_string : env :=
  serve ["A"] [("A", Opened (Body body_ab))].

Definition env_empty_list : env :=
  serve ["A"] [("A", Opened (Body "[]"))].

(** As [env_A_B], in a world where a third host answers too. *)
Definition env_A_B_C : env :=
  serve ["A"; "B"]
    [("A", Opened (Body body_x1)); ("B", Opened (Body body_x2_y3));
     ("C", Opened (Body "42"))].

(** ** Further vocabulary *)

(** The exception [x] is what the turn of the loop at position [i] raises
    for [url] when it is entered with the accumulator [acc]. *)
Definition raised_at (json_loads : string -> option pyvalue) (e : env)
    (i : nat) (url : string) (acc : pydict) (x : exn) : Prop :=
  match urlopen_at e i url with
  | OpenFails reason => x = TransportError reason
  | Opened (ReadFails reason) => x = TransportError reason
  | Opened (Body b) =>
      match json_loads b with
      | None => x = ParseError
      | Some v => dict_update acc v = Raise x
      end
  end.

(** A JSON scalar that [dict.update] cannot take: [null], a boolean, a
    number, or a string that is not empty. *)
Definition refused_scalar (v : pyvalue) : bool :=
  match v with
  | PyNone | PyBool _ | PyInt _ | PyFloat _ => true
  | PyUnicode EmptyString => false
  | PyUnicode (String _ _) => true
  | PyList _ | PyDict _ => false
  end.

(** The JSON array [[key, value]]. *)
Definition pair_item (kv : string * pyvalue) : pyvalue :=
  PyList [PyUnicode (fst kv); snd kv].

(** Two documents that give the same value to every key they share. *)
Definition compatible (d1 d2 : list (string * pyvalue)) : Prop :=
  forall key v1 v2,
    as_mapping d1 !! key = Some v1 -> as_mapping d2 !! key = Some v2 -> v1 = v2.

(** The text [{"z": 4}]. *)
Definition body_z4 : string := "{" +:+ dq +:+ "z" +:+ dq +:+ ": 4}".

Definition demo_loads_z (body : string) : option pyvalue :=
  if bool_decide (body = body_z4) then Some (PyDict [("z", PyInt 4)])
  else demo_loads body.

Definition env_A_Z : env :=
  serve ["A"; "Z"]
    [("A", Opened (Body body_x1)); ("Z", Opened (Body body_z4))].

Definition env_Z_A : env :=
  serve ["Z"; "A"]
    [("A", Opened (Body body_x1)); ("Z", Opened (Body body_z4))].

Definition env_not_json_then_B : env :=
  serve ["A"; "B"]
    [("A", Opened (Body "{not json")); ("B", Opened (Body body_x2_y3))].

(** * Properties *)

Example load_A_B :
  load_repo_data demo_loads env_A_B process_start
  = (Ok {[ KStr "x" := PyInt 2; KStr "y" := PyInt 3 ]},
     Some {[ KStr "x" := PyInt 2; KStr "y" := PyInt 3 ]},
     [EvGetRepos;
      EvUrlopen "A" true; EvRead "A" true; EvLoads body_x1 true;
      EvUrlopen "B" true; EvRead "B" true; EvLoads body_x2_y3 true]).
Proof. vm_compute. reflexivity. Qed.

(** ** [dict.update] *)

Lemma update_item_errors (ret : pydict) (item : pyvalue) (x : exn) :
  update_item ret item = Raise x -> x = TypeError \/ x = ValueError.
Proof.
  unfold update_item.
  destruct (py_iter item) as [[|k [|v [|w l]]]|]; try (intros [= <-]; auto).
  destruct (hash_key k); intros [= <-]; auto.
Qed.

Lemma update_from_seq_errors (items : list pyvalue) :
  forall (ret : pydict) (x : exn),
    update_from_seq ret items = Raise x -> x = TypeError \/ x = ValueError.
Proof.
  induction items as [|item rest IH]; intros ret x; simpl.
  - discriminate.
  - destruct (update_item ret item) as [ret'|y] eqn:Hitem.
    + apply IH.
    + intros [= <-]. eapply update_item_errors, Hitem.
Qed.

Lemma dict_update_errors (ret : pydict) (data : pyvalue) (x : exn) :
  dict_update ret data = Raise x -> x = TypeError \/ x = ValueError.
Proof.
  destruct data; simpl; try (intros [= <-]; auto); try discriminate.
  all: apply update_from_seq_errors.
Qed.

Lemma foldl_insert_union (d : list (pykey * pyvalue)) (ret : pydict) :
  foldl (fun m kv => <[fst kv := snd kv]> m) ret d
  = list_to_map (reverse d) ∪ ret.
Proof.
  induction d as [|[k v] d IH] using rev_ind.
  - simpl. by rewrite (left_id_L ∅ (∪)).
  - rewrite foldl_app, reverse_app. simpl.
    rewrite IH. by rewrite insert_union_l.
Qed.

Lemma dict_update_object (d : list (string * pyvalue)) (ret : pydict) :
  dict_update ret (PyDict d) = Ok (as_mapping d ∪ ret).
Proof.
  unfold as_mapping. rewrite <- foldl_insert_union. simpl. f_equal.
  generalize ret. induction d as [|[k v] d IH]; intros m; simpl; [done|].
  apply IH.
Qed.

Lemma update_all_objects (docs : list (list (string * pyvalue))) :
  forall ret : pydict,
    update_all ret (map PyDict docs)
    = Ok (foldl (fun acc d => as_mapping d ∪ acc) ret docs).
Proof.
  induction docs as [|d docs IH]; intros ret; [done|].
  cbn [map update_all foldl]. rewrite dict_update_object. apply IH.
Qed.

Lemma update_all_app (vs ws : list pyvalue) :
  forall ret : pydict,
    update_all ret (vs ++ ws)
    = match update_all ret vs with
      | Ok ret' => update_all ret' ws
      | Raise x => Raise x
      end.
Proof.
  induction vs as [|v vs IH]; intros ret; simpl; [done|].
  destruct (dict_update ret v); [apply IH | done].
Qed.

(** Later documents win: the lookup of a key after one more document. *)
Lemma merge_in_order_snoc docs d k :
  merge_in_order (docs ++ [d]) !! k
  = match as_mapping d !! k with
    | Some v => Some v
    | None => merge_in_order docs !! k
    end.
Proof.
  unfold merge_in_order. rewrite foldl_app. simpl.
  rewrite lookup_union. destruct (as_mapping d !! k) as [v|] eqn:Hk.
  - by destruct (foldl _ _ _ !! k).
  - by rewrite (left_id None _).
Qed.

(** ** The loop *)

Section LoaderFacts.

Variable json_loads : string -> option pyvalue.

(** One turn of the loop, case by case. *)
Lemma for_urls_cons e url rest i ret c :
  for_urls json_loads e (url :: rest) i ret c
  = match urlopen_at e i url with
    | OpenFails reason =>
        (Raise (TransportError reason), c, [EvUrlopen url false])
    | Opened (ReadFails reason) =>
        (Raise (TransportError reason), c,
         [EvUrlopen url true; EvRead url false])
    | Opened (Body b) =>
        match json_loads b with
        | None =>
            (Raise ParseError, c,
             [EvUrlopen url true; EvRead url true; EvLoads b false])
        | Some v =>
            match dict_update ret v with
            | Raise x =>
                (Raise x, c,
                 [EvUrlopen url true; EvRead url true; EvLoads b true])
            | Ok ret' =>
                let '(r, c', t) := for_urls json_loads e rest (S i) ret' c in
                (r, c',
                 EvUrlopen url true :: EvRead url true :: EvLoads b true :: t)
            end
        end
    end.
Proof.
  cbn [for_urls]. unfold m_bind at 1. unfold urlopen.
  destruct (urlopen_at e i url) as [reason|[reason|b]]; [done| |].
  - cbn. done.
  - cbn. unfold loads. destruct (json_loads b) as [v|]; [|done].
    cbn. destruct (dict_update ret v) as [ret'|x]; [|done].
    destruct (for_urls json_loads e rest (S i) ret' c) as [[r c'] t]. done.
Qed.

(** The loop never touches the global. *)
Lemma for_urls_cache e urls :
  forall i ret c, snd (fst (for_urls json_loads e urls i ret c)) = c.
Proof.
  induction urls as [|url rest IH]; intros i ret c; [done|].
  rewrite for_urls_cons.
  destruct (urlopen_at e i url) as [?|[?|b]]; try done.
  destruct (json_loads b) as [v|]; [|done].
  destruct (dict_update ret v) as [ret'|x]; [|done].
  specialize (IH (S i) ret' c).
  destruct (for_urls json_loads e rest (S i) ret' c) as [[r c'] t]. done.
Qed.

(** A call that finds the cache populated. *)
Lemma load_cached e d :
  load_repo_data json_loads e (Some d) = (Ok d, Some d, []).
Proof. reflexivity. Qed.

(** A call that finds the cache unpopulated. *)
Lemma load_uncached e :
  load_repo_data json_loads e None
  = match for_urls json_loads e (get_repos e) 0 ∅ None with
    | (Ok ret, _, t) => (Ok ret, Some ret, EvGetRepos :: t)
    | (Raise x, _, t) => (Raise x, None, EvGetRepos :: t)
    end.
Proof.
  unfold load_repo_data, m_bind, read_cached_data, config_get_repos,
    m_bind, emit, m_ret, write_cached_data.
  pose proof (for_urls_cache e (get_repos e) 0 ∅ None) as Hc.
  destruct (for_urls json_loads e (get_repos e) 0 ∅ None) as [[[ret|x] c'] t];
    simpl in Hc; subst c'; simpl; [|done].
  by rewrite app_nil_r.
Qed.

(** Calls that find the cache populated. *)
Lemma run_calls_cached es d :
  run_calls json_loads es (Some d) = map (fun _ => (Ok d, Some d, [])) es.
Proof.
  induction es as [|e es IH]; [done|].
  cbn [run_calls map]. rewrite load_cached. cbn [fst snd]. by rewrite IH.
Qed.

End LoaderFacts.

Section Loop.

Variable json_loads : string -> option pyvalue.

Local Abbreviation for_urls := (for_urls json_loads).

(** The cases of one turn, for the proofs by induction on the URL list. *)
Local Ltac turn e i url ret rest c :=
  rewrite for_urls_cons;
  destruct (urlopen_at e i url) as [reason|[reason|b]] eqn:Hopen;
  [ | | destruct (json_loads b) as [v|] eqn:Hloads;
        [ destruct (dict_update ret v) as [ret'|x] eqn:Hupd;
          [ destruct (for_urls e rest (S i) ret' c) as [[r c'] t] eqn:Hrest
          | ]
        | ] ].

Lemma for_urls_app e l1 l2 :
  forall i ret c,
    for_urls e (l1 ++ l2) i ret c
    = match for_urls e l1 i ret c with
      | (Ok ret', c', t) =>
          let '(r, c'', t') := for_urls e l2 (i + length l1) ret' c' in
          (r, c'', t ++ t')
      | (Raise x, c', t) => (Raise x, c', t)
      end.
Proof.
  induction l1 as [|url rest IH]; intros i ret c.
  - simpl. rewrite Nat.add_0_r.
    by destruct (for_urls e l2 i ret c) as [[r c'] t].
  - rewrite <- app_comm_cons. rewrite (for_urls_cons _ e url (rest ++ l2)).
    turn e i url ret rest c; try done.
    rewrite IH, Hrest. destruct r; [|done].
    cbn [length]. replace (i + S (length rest)) with (S i + length rest) by lia.
    by destruct (for_urls e l2 (S i + length rest) a c') as [[r' c''] t'].
Qed.

(** When every body of the list is read and decoded, the loop is
    [update_all] on the decoded values. *)
Lemma for_urls_values e urls :
  forall i ret c (vs : list pyvalue),
    length vs = length urls ->
    (forall j u, urls !! j = Some u ->
       exists b v, urlopen_at e (i + j) u = Opened (Body b)
                   /\ json_loads b = Some v /\ vs !! j = Some v) ->
    (for_urls e urls i ret c).1.1 = update_all ret vs.
Proof.
  induction urls as [|url rest IH]; intros i ret c vs Hlen Hall.
  - destruct vs; [done | discriminate].
  - destruct vs as [|v0 vs]; [discriminate|].
    destruct (Hall 0 url eq_refl) as (b0 & v0' & Ho & Hl & Hv).
    rewrite Nat.add_0_r in Ho. simpl in Hv. injection Hv as <-.
    rewrite for_urls_cons, Ho, Hl. cbn [update_all].
    destruct (dict_update ret v0) as [ret'|x]; [|done].
    specialize (IH (S i) ret' c vs).
    destruct (for_urls e rest (S i) ret' c) as [[r c'] t]. simpl in *.
    apply IH; [lia|]. intros j u Hj.
    destruct (Hall (S j) u Hj) as (b & v & H1 & H2 & H3).
    exists b, v. rewrite Nat.add_succ_r in H1. auto.
Qed.

(** Two worlds that answer alike at the positions of the list drive the
    loop alike. *)
Lemma for_urls_ext e1 e2 urls :
  forall i ret c,
    (forall j u, urls !! j = Some u ->
       urlopen_at e1 (i + j) u = urlopen_at e2 (i + j) u) ->
    for_urls e1 urls i ret c = for_urls e2 urls i ret c.
Proof.
  induction urls as [|url rest IH]; intros i ret c Hall; [done|].
  rewrite !for_urls_cons.
  pose proof (Hall 0 url eq_refl) as H0. rewrite Nat.add_0_r in H0.
  rewrite <- H0.
  destruct (urlopen_at e1 i url) as [?|[?|b]]; try done.
  destruct (json_loads b) as [v|]; [|done].
  destruct (dict_update ret v) as [ret'|x]; [|done].
  rewrite (IH (S i) ret' c); [done|].
  intros j u Hj. replace (S i + j) with (i + S j) by lia. by apply (Hall (S j)).
Qed.

(** The flag of a [json.loads] event is what the codec did. *)
Lemma for_urls_loads_flag e urls :
  forall i ret c b ok,
    In (EvLoads b ok) (for_urls e urls i ret c).2 ->
    ok = bool_decide (is_Some (json_loads b)).
Proof.
  induction urls as [|url rest IH]; intros i ret c b' ok; [done|].
  turn e i url ret rest c; cbn [snd In]; intros Hin.
  all: repeat (destruct Hin as [Hin|Hin]; [try discriminate|]); try done.
  all: try (injection Hin as <- <-; by rewrite Hloads).
  specialize (IH (S i) ret' c b' ok). rewrite Hrest in IH. by apply IH.
Qed.

(** The requests follow the list: a prefix of it, all of it when the loop
    completes, and nothing past a position whose fetch or parse fails. *)
Lemma for_urls_requested e urls :
  forall i ret c,
    let run := for_urls e urls i ret c in
    requested run.2 = take (length (requested run.2)) urls
    /\ ((exists d, run.1.1 = Ok d) -> requested run.2 = urls)
    /\ (forall j u, urls !! j = Some u -> fails_at json_loads e (i + j) u ->
          length (requested run.2) <= S j).
Proof.
  induction urls as [|url rest IH]; intros i ret c; cbn zeta.
  - repeat split; try done; intros j u Hj; by destruct j.
  - turn e i url ret rest c; cbn [fst snd requested length take].
    all: try (repeat split; [by intros [d [=]] | intros; lia]).
    specialize (IH (S i) ret' c). rewrite Hrest in IH. cbn in IH.
    destruct IH as (IH1 & IH2 & IH3). repeat split.
    + by rewrite <- IH1.
    + intros Hok. by rewrite IH2.
    + intros [|j] u Hj Hfail.
      * injection Hj as <-. unfold fails_at in Hfail.
        rewrite Nat.add_0_r, Hopen in Hfail. congruence.
      * rewrite Nat.add_succ_r in Hfail.
        specialize (IH3 j u Hj Hfail). lia.
Qed.

(** The network part of the trace: whole fetches of a prefix of the list,
    one after the other, then at most one fetch that broke off. *)
Lemma for_urls_network e urls :
  forall i ret c,
    exists n last,
      network (for_urls e urls i ret c).2
      = flat_map fetched (take n urls) ++ last
      /\ (last = []
          \/ exists u, urls !! n = Some u
               /\ (last = [EvUrlopen u false]
                   \/ last = [EvUrlopen u true; EvRead u false]))
      /\ ((exists d, (for_urls e urls i ret c).1.1 = Ok d) ->
          n = length urls /\ last = []).
Proof.
  induction urls as [|url rest IH]; intros i ret c.
  - exists 0, []. auto.
  - turn e i url ret rest c; cbn [fst snd].
    + exists 0, [EvUrlopen url false].
      split; [done|]. split; [right; eauto | by intros [d [=]]].
    + exists 0, [EvUrlopen url true; EvRead url false].
      split; [done|]. split; [right; eauto | by intros [d [=]]].
    + destruct (IH (S i) ret' c) as (n & last & Hnet & Hlast & Hok).
      rewrite Hrest in Hnet, Hok. cbn [fst snd] in Hnet, Hok.
      exists (S n), last. split; [|split; [done|]].
      * cbn. unfold network in Hnet. by rewrite Hnet.
      * intros Hd. destruct (Hok Hd) as [-> ->]. done.
    + exists 1, []. split; [|split; [by left | by intros [d [=]]]].
      cbn. by rewrite take_0.
    + exists 1, []. split; [|split; [by left | by intros [d [=]]]].
      cbn. by rewrite take_0.
Qed.

(** Every response the loop obtains is read. *)
Lemma for_urls_reads_opened e urls :
  forall i ret c u,
    In (EvUrlopen u true) (for_urls e urls i ret c).2 ->
    exists ok, In (EvRead u ok) (for_urls e urls i ret c).2.
Proof.
  induction urls as [|url rest IH]; intros i ret c u; [by intros []|].
  turn e i url ret rest c; cbn [snd In]; intros Hin.
  all: repeat (destruct Hin as [Hin|Hin]; [try discriminate|]); try done.
  all: try (injection Hin as <-; eauto 6).
  specialize (IH (S i) ret' c u). rewrite Hrest in IH.
  destruct (IH Hin) as [ok Hok]. eauto 6.
Qed.

(** Which exception leaves the loop, read off the trace. *)
Lemma for_urls_failures e urls :
  forall i ret c,
    let run := for_urls e urls i ret c in
    is_transport_error run.1.1 = existsb get_failed run.2
    /\ is_parse_error run.1.1 = existsb loads_failed run.2.
Proof.
  induction urls as [|url rest IH]; intros i ret c; cbn zeta; [done|].
  turn e i url ret rest c; cbn [fst snd]; try done.
  - specialize (IH (S i) ret' c). rewrite Hrest in IH. apply IH.
  - apply dict_update_errors in Hupd as [-> | ->]; done.
Qed.

(** A failed call to the transport or to the codec is the last thing the
    loop does, and the only failure of the trace. *)
Lemma for_urls_failure_last e urls :
  forall i ret c,
    let run := for_urls e urls i ret c in
    is_transport_error run.1.1 || is_parse_error run.1.1 = true ->
    exists t ev, run.2 = t ++ [ev] /\ failed ev = true
                 /\ existsb failed t = false.
Proof.
  induction urls as [|url rest IH]; intros i ret c; cbn zeta; [done|].
  turn e i url ret rest c; cbn [fst snd]; intros Hfail.
  - by exists [], (EvUrlopen url false).
  - by exists [EvUrlopen url true], (EvRead url false).
  - specialize (IH (S i) ret' c). rewrite Hrest in IH. cbn [fst snd] in IH.
    destruct (IH Hfail) as (t' & ev & -> & Hev & Ht').
    by exists (EvUrlopen url true :: EvRead url true :: EvLoads b true :: t'), ev.
  - apply dict_update_errors in Hupd as [-> | ->]; done.
  - by exists [EvUrlopen url true; EvRead url true], (EvLoads b false).
Qed.

(** The loop never closes a response. *)
Lemma for_urls_no_close e urls :
  forall i ret c url, ~ In (EvClose url) (for_urls e urls i ret c).2.
Proof.
  induction urls as [|url rest IH]; intros i ret c u; [by intros []|].
  turn e i url ret rest c; cbn [snd In]; intros Hin.
  all: repeat (destruct Hin as [Hin|Hin]; [discriminate|]); try done.
  apply (IH (S i) ret' c u). by rewrite Hrest.
Qed.

End Loop.

(** ** One call, seen from outside *)

Lemma is_transport_error_true {A} (r : result A) :
  is_transport_error r = true <-> exists reason, r = Raise (TransportError reason).
Proof.
  split.
  - destruct r as [a|[reason| | |]]; try discriminate. eauto.
  - by intros [reason ->].
Qed.

Lemma is_parse_error_true {A} (r : result A) :
  is_parse_error r = true <-> r = Raise ParseError.
Proof.
  split; [|by intros ->].
  by destruct r as [a|[reason| | |]].
Qed.

Section Call.

Variable json_loads : string -> option pyvalue.

Local Abbreviation load := (load_repo_data json_loads).

(** A first call either raises and leaves the cache unpopulated, or returns
    a mapping and caches that very mapping. *)
Lemma load_first_outcome e :
  (exists x t, load e None = (Raise x, None, t))
  \/ (exists d t, load e None = (Ok d, Some d, t)).
Proof.
  rewrite load_uncached.
  destruct (for_urls json_loads e (get_repos e) 0 ∅ None) as [[[d|x] c] t];
    eauto.
Qed.

Lemma load_failures e c :
  is_transport_error (load e c).1.1 = existsb get_failed (load e c).2
  /\ is_parse_error (load e c).1.1 = existsb loads_failed (load e c).2.
Proof.
  destruct c as [d|]; [by rewrite load_cached|].
  rewrite load_uncached.
  pose proof (for_urls_failures json_loads e (get_repos e) 0 ∅ None) as H.
  by destruct (for_urls json_loads e (get_repos e) 0 ∅ None) as [[[d|x] c] t].
Qed.

Lemma load_failure_last e c :
  is_transport_error (load e c).1.1 || is_parse_error (load e c).1.1 = true ->
  (load e c).1.2 = None
  /\ exists t ev, (load e c).2 = t ++ [ev] /\ failed ev = true
                  /\ existsb failed t = false.
Proof.
  destruct c as [d|]; [by rewrite load_cached|].
  rewrite load_uncached.
  pose proof (for_urls_failure_last json_loads e (get_repos e) 0 ∅ None) as H.
  destruct (for_urls json_loads e (get_repos e) 0 ∅ None) as [[[d|x] c] t];
    cbn [fst snd] in *; [done|].
  intros Hfail. split; [done|].
  destruct (H Hfail) as (t' & ev & -> & Hev & Ht').
  by exists (EvGetRepos :: t'), ev.
Qed.

Lemma load_no_close e c url : ~ In (EvClose url) (load e c).2.
Proof.
  destruct c as [d|]; [rewrite load_cached; by intros []|].
  rewrite load_uncached.
  pose proof (for_urls_no_close json_loads e (get_repos e) 0 ∅ None url) as H.
  destruct (for_urls json_loads e (get_repos e) 0 ∅ None) as [[[d|x] c] t];
    cbn [snd In] in *; by intros [|].
Qed.

End Call.

(** * The claims of the specification *)

Section Claims.

Variable json_loads : string -> option pyvalue.

Local Abbreviation load := (load_repo_data json_loads).

(** C1. When every fetch succeeds and every body parses as a JSON object,
    the first call returns (and caches) the documents merged in list order
    from the empty mapping, a later document winning on a shared key. *)
Theorem load_merges_documents (e : env) (docs : list (list (string * pyvalue))) :
  length docs = length (get_repos e) ->
  (forall j u, get_repos e !! j = Some u ->
     exists b d, urlopen_at e j u = Opened (Body b)
                 /\ json_loads b = Some (PyDict d) /\ docs !! j = Some d) ->
  (load e process_start).1
  = (Ok (merge_in_order docs), Some (merge_in_order docs)).
Proof.
  intros Hlen Hall. unfold process_start. rewrite load_uncached.
  pose proof (for_urls_values json_loads e (get_repos e) 0 ∅ None
                (map PyDict docs)) as Hrun.
  rewrite update_all_objects in Hrun.
  destruct (for_urls json_loads e (get_repos e) 0 ∅ None) as [[r c] t].
  cbn [fst] in Hrun. rewrite Hrun; [done | by rewrite length_map |].
  intros j u Hj. destruct (Hall j u Hj) as (b & d & Ho & Hl & Hd).
  exists b, (PyDict d). rewrite list_lookup_fmap, Hd. done.
Qed.

(** C2. Once the cache is populated, every later call returns the cached
    mapping, leaves the cache as it is and calls no collaborator: no
    request, no read, and no look at the configuration. *)
Theorem cached_calls_are_pure_reads (es : list env) (d : pydict) :
  run_calls json_loads es (Some d) = map (fun _ => (Ok d, Some d, [])) es.
Proof. apply run_calls_cached. Qed.

(** C3. A call that raises leaves the cache unpopulated, so nothing merged
    before the failure survives it: the next call is a first call again. It
    asks the configuration anew and requests the URLs from the head of the
    list, all of them when it completes. *)
Theorem failure_leaves_cache_unpopulated (e : env) (x : exn) :
  (load e process_start).1.1 = Raise x ->
  (load e process_start).1.2 = None
  /\ forall e',
       run_calls json_loads [e; e'] process_start
       = [load e process_start; load e' process_start]
       /\ head (load e' process_start).2 = Some EvGetRepos
       /\ requested (load e' process_start).2
          = take (length (requested (load e' process_start).2)) (get_repos e')
       /\ ((exists d, (load e' process_start).1.1 = Ok d) ->
           requested (load e' process_start).2 = get_repos e').
Proof.
  unfold process_start. intros Hraise.
  assert ((load e None).1.2 = None) as Hcache.
  { rewrite load_uncached in Hraise |- *.
    destruct (for_urls json_loads e (get_repos e) 0 ∅ None) as [[[d|y] c] t];
      [discriminate | done]. }
  split; [done|]. intros e'. cbn [run_calls]. rewrite Hcache.
  split; [done|]. rewrite load_uncached.
  pose proof (for_urls_requested json_loads e' (get_repos e') 0 ∅ None)
    as (Hpre & Hall & _).
  destruct (for_urls json_loads e' (get_repos e') 0 ∅ None) as [[[d|y] c] t];
    cbn [fst snd head requested] in *; repeat split; done.
Qed.

(** C4. With an empty URL list the first call returns the empty mapping and
    caches it, having only asked the configuration; every later call
    returns the same empty mapping and calls no collaborator. *)
Theorem empty_list_populates_cache (e : env) (es : list env) :
  get_repos e = [] ->
  run_calls json_loads (e :: es) process_start
  = (Ok ∅, Some ∅, [EvGetRepos]) :: map (fun _ => (Ok ∅, Some ∅, [])) es.
Proof.
  intros Hnil. cbn [run_calls]. unfold process_start.
  rewrite load_uncached, Hnil. cbn [for_urls m_ret fst snd].
  f_equal. apply run_calls_cached.
Qed.

(** C5. A call raises a [TransportError] exactly when a call to the
    transport failed, and a [ParseError] exactly when [json.loads] rejected
    a body.  The failed call is then the last thing the function did and
    the only failure of the trace (nothing is retried), and the cache holds
    no partial data: it is unpopulated. *)
Theorem errors_propagate_by_kind (e : env) (c : option pydict) :
  ((exists reason, (load e c).1.1 = Raise (TransportError reason))
   <-> exists ev, In ev (load e c).2 /\ get_failed ev = true)
  /\ ((load e c).1.1 = Raise ParseError
      <-> exists ev, In ev (load e c).2 /\ loads_failed ev = true)
  /\ (((exists reason, (load e c).1.1 = Raise (TransportError reason))
       \/ (load e c).1.1 = Raise ParseError) ->
      (load e c).1.2 = None
      /\ exists t ev, (load e c).2 = t ++ [ev] /\ failed ev = true
                      /\ existsb failed t = false).
Proof.
  destruct (load_failures json_loads e c) as [Ht Hp].
  split; [|split].
  - rewrite <- is_transport_error_true, Ht, existsb_exists. done.
  - rewrite <- is_parse_error_true, Hp, existsb_exists. done.
  - intros Hkind. apply load_failure_last.
    destruct Hkind as [Hkind|Hkind].
    + apply is_transport_error_true in Hkind. by rewrite Hkind.
    + apply is_parse_error_true in Hkind. rewrite Hkind. apply orb_true_r.
Qed.

(** C6. The cache starts unpopulated and moves once, one way.  Along any
    sequence of calls from process start, either every call raises and the
    cache stays unpopulated, or the calls before the first one that
    completes raise and leave it unpopulated, that call assigns what it
    returns, and every later call finds and leaves that same mapping,
    calling no collaborator. *)
Theorem cache_populated_once (es : list env) :
  process_start = None
  /\ (Forall (fun run => run.1.2 = None /\ exists x, run.1.1 = Raise x)
        (run_calls json_loads es process_start)
      \/ exists before d t after,
           run_calls json_loads es process_start
           = before ++ (Ok d, Some d, t) :: after
           /\ Forall (fun run => run.1.2 = None /\ exists x, run.1.1 = Raise x)
                before
           /\ Forall (fun run => run = (Ok d, Some d, [])) after).
Proof.
  split; [done|]. unfold process_start.
  induction es as [|e es IH]; [by left|].
  cbn [run_calls].
  destruct (load_first_outcome json_loads e) as [(x & t & ->)|(d & t & ->)];
    cbn [fst snd].
  - destruct IH as [IH|(before & d & t' & after & -> & Hb & Ha)].
    + left. constructor; [|done]. eauto.
    + right. exists ((Raise x, None, t) :: before), d, t', after.
      split; [done|]. split; [|done]. constructor; [|done]. eauto.
  - right. exists [], d, t, (run_calls json_loads es (Some d)).
    split; [done|]. split; [done|].
    rewrite run_calls_cached. apply Forall_forall.
    intros run Hin. apply list_elem_of_In, in_map_iff in Hin. by destruct Hin as (? & <- & _).
Qed.

(** C7. On a cache miss the requests follow the list: one GET per URL, in
    order, each response read whole before the next request; the requested
    URLs are a prefix of the list, the whole list when the call completes,
    and no URL past a position whose fetch or parse fails is requested. *)
Theorem requests_are_sequential (e : env) :
  (exists n last,
      network (load e process_start).2
      = flat_map fetched (take n (get_repos e)) ++ last
      /\ (last = []
          \/ exists u, get_repos e !! n = Some u
               /\ (last = [EvUrlopen u false]
                   \/ last = [EvUrlopen u true; EvRead u false]))
      /\ ((exists d, (load e process_start).1.1 = Ok d) ->
          n = length (get_repos e) /\ last = []))
  /\ requested (load e process_start).2
     = take (length (requested (load e process_start).2)) (get_repos e)
  /\ ((exists d, (load e process_start).1.1 = Ok d) ->
      requested (load e process_start).2 = get_repos e)
  /\ (forall j u, get_repos e !! j = Some u -> fails_at json_loads e j u ->
        length (requested (load e process_start).2) <= S j).
Proof.
  unfold process_start. rewrite load_uncached.
  pose proof (for_urls_network json_loads e (get_repos e) 0 ∅ None)
    as (n & last & Hnet & Hlast & Hok).
  pose proof (for_urls_requested json_loads e (get_repos e) 0 ∅ None)
    as (Hpre & Hall & Hstop).
  destruct (for_urls json_loads e (get_repos e) 0 ∅ None) as [[[d|x] c] t];
    cbn [fst snd requested] in *.
  all: change (network (EvGetRepos :: t)) with (network t).
  all: split;
    [ exists n, last; split; [exact Hnet | split; [exact Hlast | exact Hok]]
    | split; [exact Hpre | split; [exact Hall | exact Hstop]] ].
Qed.

(** C8, as amended.  [load_repo_data] reads every response it obtains and
    never closes one itself, whatever the call finds and however it ends:
    the trace of a call holds no close. *)
Theorem responses_are_read_never_closed (e : env) (c : option pydict) :
  (forall url, ~ In (EvClose url) (load e c).2)
  /\ (forall url, In (EvUrlopen url true) (load e c).2 ->
        exists ok, In (EvRead url ok) (load e c).2).
Proof.
  split; [intros url; apply load_no_close|].
  destruct c as [d|]; [by rewrite load_cached|].
  rewrite load_uncached. intros url.
  pose proof (for_urls_reads_opened json_loads e (get_repos e) 0 ∅ None url)
    as H.
  destruct (for_urls json_loads e (get_repos e) 0 ∅ None) as [[[d|x] c] t];
    cbn [snd In] in *.
  all: intros [Hin|Hin]; [discriminate|].
  all: destruct (H Hin) as [ok Hok]; eauto.
Qed.

(** C9. A body that is valid JSON but no object is not a parse failure:
    [json.loads] returns, and [dict.update] takes the value as a sequence of
    pairs.  When that raises, the call raises the same [TypeError] or
    [ValueError], and the cache stays unpopulated. *)
Theorem non_object_document (e : env) (pre post : list string) (u b : string)
    (vs : list pyvalue) (acc : pydict) (v : pyvalue) :
  get_repos e = pre ++ u :: post ->
  length vs = length pre ->
  (forall j u', pre !! j = Some u' ->
     exists b' v', urlopen_at e j u' = Opened (Body b')
                   /\ json_loads b' = Some v' /\ vs !! j = Some v') ->
  update_all ∅ vs = Ok acc ->
  urlopen_at e (length pre) u = Opened (Body b) ->
  json_loads b = Some v ->
  (forall d, v <> PyDict d) ->
  In (EvLoads b true) (load e process_start).2
  /\ ~ In (EvLoads b false) (load e process_start).2
  /\ dict_update acc v
     = match py_iter v with
       | None => Raise TypeError
       | Some items => update_from_seq acc items
       end
  /\ forall x, dict_update acc v = Raise x ->
       (load e process_start).1 = (Raise x, None)
       /\ (x = TypeError \/ x = ValueError).
Proof.
  intros Hurls Hlen Hpre Hacc Hopen Hloads Hobj. unfold process_start.
  assert (~ In (EvLoads b false) (load e None).2) as Hflag.
  { rewrite load_uncached. intros Hin.
    pose proof (for_urls_loads_flag json_loads e (get_repos e) 0 ∅ None b false)
      as Hf.
    destruct (for_urls json_loads e (get_repos e) 0 ∅ None) as [[[d|x] c] t];
      cbn [snd In] in *; (destruct Hin as [Hin|Hin]; [discriminate|]);
      specialize (Hf Hin); rewrite Hloads in Hf; discriminate. }
  assert (dict_update acc v
          = match py_iter v with
            | None => Raise TypeError
            | Some items => update_from_seq acc items
            end) as Hseq.
  { destruct v; try done. by destruct (Hobj d). }
  split; [|split; [exact Hflag|split; [exact Hseq|]]]; clear Hflag Hseq.
  all: rewrite load_uncached, Hurls, for_urls_app.
  all: pose proof (for_urls_values json_loads e pre 0 ∅ None vs Hlen Hpre)
         as Hrun.
  all: pose proof (for_urls_cache json_loads e pre 0 ∅ None) as Hc.
  all: rewrite Hacc in Hrun.
  all: destruct (for_urls json_loads e pre 0 ∅ None) as [[r c] t].
  all: cbn [fst snd] in Hrun, Hc; subst r c.
  all: rewrite for_urls_cons; cbn [Nat.add]; rewrite Hopen, Hloads.
  - assert (In (EvLoads b true)
              (t ++ [EvUrlopen u true; EvRead u true; EvLoads b true])) as Hin.
    { apply in_or_app. right. cbn. auto. }
    destruct (dict_update acc v) as [acc'|y].
    + destruct (for_urls json_loads e post (S (length pre)) acc' None)
        as [[[d|z] c] t']; cbn [snd]; right; apply in_or_app;
        right; cbn; auto.
    + cbn [snd]. by right.
  - intros x Hx. rewrite Hx. cbn [fst].
    split; [done|]. by apply (dict_update_errors acc v).
Qed.

(** C10. The first call is a function of what the configuration and the
    network give it: two worlds with the same URL list and the same answer
    at each position of the list yield the same result, the same cache and
    the same trace. *)
Theorem load_is_deterministic (e1 e2 : env) :
  get_repos e1 = get_repos e2 ->
  (forall j u, get_repos e1 !! j = Some u ->
     urlopen_at e1 j u = urlopen_at e2 j u) ->
  load e1 process_start = load e2 process_start.
Proof.
  intros Hurls Hsame. unfold process_start.
  rewrite !load_uncached, <- Hurls.
  by rewrite (for_urls_ext json_loads e1 e2 (get_repos e1) 0 ∅ None).
Qed.

End Claims.

(** * The claims on the examples of the specification *)

(** The two documents of the specification's example, merged. *)
Lemma load_merges_documents_witness :
  let docs := [[("x", PyInt 1)]; [("y", PyInt 3); ("x", PyInt 2)]] in
  length docs = length (get_repos env_A_B)
  /\ (load_repo_data demo_loads env_A_B process_start).1
     = (Ok (merge_in_order docs), Some (merge_in_order docs))
  /\ merge_in_order docs = {[ KStr "x" := PyInt 2; KStr "y" := PyInt 3 ]}.
Proof.
  intros docs. split; [reflexivity|]. split; [|vm_compute; reflexivity].
  apply (load_merges_documents demo_loads env_A_B docs); [reflexivity|].
  intros [|[|j]] u Hj; cbn in Hj; try discriminate; injection Hj as <-.
  - exists body_x1, [("x", PyInt 1)]. repeat split; vm_compute; reflexivity.
  - exists body_x2_y3, [("y", PyInt 3); ("x", PyInt 2)].
    repeat split; vm_compute; reflexivity.
Defined.

(** "A" answers and "B" refuses the connection: the failure comes out, the
    cache stays unpopulated, and the next call starts over. *)
Lemma failure_leaves_cache_unpopulated_witness :
  (load_repo_data demo_loads env_B_down process_start).1.1
  = Raise (TransportError "connection refused")
  /\ (load_repo_data demo_loads env_B_down process_start).1.2 = None
  /\ run_calls demo_loads [env_B_down; env_A_B] process_start
     = [load_repo_data demo_loads env_B_down process_start;
        load_repo_data demo_loads env_A_B process_start].
Proof.
  assert ((load_repo_data demo_loads env_B_down process_start).1.1
          = Raise (TransportError "connection refused")) as Hraise
    by (vm_compute; reflexivity).
  destruct (failure_leaves_cache_unpopulated demo_loads env_B_down _ Hraise)
    as [Hcache Hnext].
  split; [exact Hraise|]. split; [exact Hcache|].
  exact (proj1 (Hnext env_A_B)).
Defined.

Lemma empty_list_populates_cache_witness :
  get_repos env_no_repos = []
  /\ run_calls demo_loads [env_no_repos; env_A_B; env_B_down] process_start
     = [(Ok ∅, Some ∅, [EvGetRepos]); (Ok ∅, Some ∅, []); (Ok ∅, Some ∅, [])].
Proof.
  split; [reflexivity|].
  apply (empty_list_populates_cache demo_loads env_no_repos
           [env_A_B; env_B_down]).
  reflexivity.
Defined.

(** The body [{not json]: a [ParseError], after which nothing else is done
    and nothing is cached. *)
Lemma errors_propagate_by_kind_witness :
  (exists ev, In ev (load_repo_data demo_loads env_not_json process_start).2
              /\ loads_failed ev = true)
  /\ (load_repo_data demo_loads env_not_json process_start).1.1
     = Raise ParseError
  /\ (load_repo_data demo_loads env_not_json process_start).1.2 = None.
Proof.
  destruct (errors_propagate_by_kind demo_loads env_not_json process_start)
    as (_ & Hparse & Hlast).
  assert (exists ev,
             In ev (load_repo_data demo_loads env_not_json process_start).2
             /\ loads_failed ev = true) as Hev.
  { exists (EvLoads "{not json" false). split; [|reflexivity].
    vm_compute. auto. }
  split; [exact Hev|]. split; [exact (proj2 Hparse Hev)|].
  exact (proj1 (Hlast (or_intror (proj2 Hparse Hev)))).
Defined.

(** Both on the path that completes and on the path where parsing fails,
    the responses that were read are not closed. *)
Lemma responses_closed_counterexample :
  closes_after_read (load_repo_data demo_loads env_A_B process_start).2 = false
  /\ closes_after_read
       (load_repo_data demo_loads env_not_json process_start).2 = false.
Proof. split; vm_compute; reflexivity. Qed.

(** "A" returns an object and "B" the number [42]: a [TypeError] from
    [dict.update], and the cache stays unpopulated. *)
Lemma non_object_document_witness :
  get_repos env_number = ["A"] ++ "B" :: []
  /\ demo_loads "42" = Some (PyInt 42)
  /\ In (EvLoads "42" true)
        (load_repo_data demo_loads env_number process_start).2
  /\ (load_repo_data demo_loads env_number process_start).1
     = (Raise TypeError, None).
Proof.
  split; [reflexivity|]. split; [reflexivity|].
  destruct (non_object_document demo_loads env_number ["A"] [] "B" "42"
              [PyDict [("x", PyInt 1)]] {[ KStr "x" := PyInt 1 ]} (PyInt 42))
    as (Hin & _ & _ & Hraise); try reflexivity; try discriminate.
  - intros [|j] u Hj; cbn in Hj; try discriminate; injection Hj as <-.
    exists body_x1, (PyDict [("x", PyInt 1)]).
    repeat split; vm_compute; reflexivity.
  - split; [exact Hin|]. exact (proj1 (Hraise TypeError eq_refl)).
Defined.

(** A host that is not in the list does not matter. *)
Lemma load_is_deterministic_witness :
  get_repos env_A_B = get_repos env_A_B_C
  /\ load_repo_data demo_loads env_A_B process_start
     = load_repo_data demo_loads env_A_B_C process_start.
Proof.
  split; [reflexivity|].
  apply (load_is_deterministic demo_loads env_A_B env_A_B_C); [reflexivity|].
  intros [|[|j]] u Hj; cbn in Hj; try discriminate; injection Hj as <-;
    reflexivity.
Defined.

(** ** Further runs *)

(** The retry of the specification's example: the second call asks the
    configuration again and requests both "A" and "B". *)
Example retry_after_failure :
  map snd (run_calls demo_loads [env_B_down; env_B_down] process_start)
  = [[EvGetRepos; EvUrlopen "A" true; EvRead "A" true; EvLoads body_x1 true;
      EvUrlopen "B" false];
     [EvGetRepos; EvUrlopen "A" true; EvRead "A" true; EvLoads body_x1 true;
      EvUrlopen "B" false]].
Proof. vm_compute. reflexivity. Qed.

(** A JSON string of two characters is iterated character by character, and
    a character is no pair: [ValueError]. *)
Example load_json_string :
  (load_repo_data demo_loads env_string process_start).1
  = (Raise ValueError, None).
Proof. vm_compute. reflexivity. Qed.

(** An empty JSON array is an empty sequence of pairs: no error at all, and
    the empty mapping is cached. *)
Example load_json_empty_array :
  (load_repo_data demo_loads env_empty_list process_start).1
  = (Ok ∅, Some ∅).
Proof. vm_compute. reflexivity. Qed.

(** * More on [ret.update(data)] *)

Lemma update_from_seq_dom (items : list pyvalue) :
  forall ret r : pydict, update_from_seq ret items = Ok r -> dom ret ⊆ dom r.
Proof.
  induction items as [|item rest IH]; intros ret r; simpl.
  - by intros [= ->].
  - unfold update_item.
    destruct (py_iter item) as [[|k [|v [|w l]]]|]; try discriminate.
    destruct (hash_key k) as [key|]; [|discriminate].
    intros Hrest. apply IH in Hrest.
    etrans; [apply (dom_insert_subseteq ret key v)|done].
Qed.

Lemma dict_update_dom (ret r : pydict) (v : pyvalue) :
  dict_update ret v = Ok r -> dom ret ⊆ dom r.
Proof.
  destruct v; simpl; try discriminate.
  - apply update_from_seq_dom.
  - apply update_from_seq_dom.
  - change (dict_update ret (PyDict d) = Ok r -> dom ret ⊆ dom r).
    rewrite dict_update_object. intros [= <-]. rewrite dom_union_L. set_solver.
Qed.

Lemma update_all_dom (vs : list pyvalue) :
  forall ret r : pydict, update_all ret vs = Ok r -> dom ret ⊆ dom r.
Proof.
  induction vs as [|v vs IH]; intros ret r; simpl.
  - by intros [= ->].
  - destruct (dict_update ret v) as [ret'|x] eqn:Hv; [|discriminate].
    intros Hrest. etrans; [by eapply dict_update_dom | by apply IH].
Qed.

(** Every value of a sequence that [update_all] gets through was taken by
    [dict.update], and what it put in is still there at the end. *)
Lemma update_all_ok_lookup (vs : list pyvalue) :
  forall (ret d : pydict) j v,
    update_all ret vs = Ok d -> vs !! j = Some v ->
    exists acc r, dict_update acc v = Ok r /\ dom r ⊆ dom d.
Proof.
  induction vs as [|v0 vs IH]; intros ret d j v; [done|]. simpl.
  destruct (dict_update ret v0) as [ret'|x] eqn:Hv0; [|discriminate].
  intros Hrest Hj. destruct j as [|j].
  - injection Hj as <-. exists ret, ret'. split; [done|].
    by eapply update_all_dom.
  - by eapply IH.
Qed.

Lemma dict_update_refused (ret : pydict) (v : pyvalue) :
  refused_scalar v = true -> exists x, dict_update ret v = Raise x.
Proof.
  destruct v as [| | |f|s| |]; try discriminate; simpl; eauto.
  destruct s as [|c s]; [discriminate|]. intros _. simpl. eauto.
Qed.

Lemma as_mapping_fmap (d : list (string * pyvalue)) :
  as_mapping d
  = list_to_map (reverse ((fun kv => (KStr (fst kv), snd kv)) <$> d)).
Proof. reflexivity. Qed.

Lemma as_mapping_lookup_string (d : list (string * pyvalue)) key v :
  as_mapping d !! key = Some v -> exists k, key = KStr k /\ (k, v) ∈ d.
Proof.
  rewrite as_mapping_fmap. intros Hl. apply elem_of_list_to_map_2 in Hl.
  apply elem_of_reverse, list_elem_of_fmap in Hl as ([k v'] & [= -> ->] & Hin).
  eauto.
Qed.

Lemma as_mapping_lookup_nodup (d : list (string * pyvalue)) k v :
  NoDup (d.*1) -> (k, v) ∈ d -> as_mapping d !! KStr k = Some v.
Proof.
  intros Hnd Hin. rewrite as_mapping_fmap. apply elem_of_list_to_map_1.
  - rewrite fmap_reverse, reverse_Permutation, <- list_fmap_compose.
    change (NoDup (KStr ∘ fst <$> d)). rewrite list_fmap_compose.
    apply NoDup_fmap_2; [|done]. by intros ?? [=].
  - apply elem_of_reverse, list_elem_of_fmap. by exists (k, v).
Qed.

Lemma as_mapping_lookup_absent (d : list (string * pyvalue)) k :
  k ∉ d.*1 -> as_mapping d !! KStr k = None.
Proof.
  intros Hk. destruct (as_mapping d !! KStr k) as [v|] eqn:Hl; [|done].
  apply as_mapping_lookup_string in Hl as (k' & [= <-] & Hin).
  destruct Hk. apply list_elem_of_fmap. by exists (k, v).
Qed.

Lemma as_mapping_dom (d : list (string * pyvalue)) k v :
  (k, v) ∈ d -> KStr k ∈ dom (as_mapping d).
Proof.
  intros Hin. rewrite as_mapping_fmap, dom_list_to_map_L, elem_of_list_to_set.
  apply list_elem_of_fmap. exists (KStr k, v). split; [done|].
  apply elem_of_reverse, list_elem_of_fmap. by exists (k, v).
Qed.

Lemma merge_compatible_swap d1 d2 (acc : pydict) :
  compatible d1 d2 ->
  as_mapping d2 ∪ (as_mapping d1 ∪ acc) = as_mapping d1 ∪ (as_mapping d2 ∪ acc).
Proof.
  intros Hcompat. apply map_eq. intros key. rewrite !lookup_union.
  destruct (as_mapping d1 !! key) as [v1|] eqn:H1;
    destruct (as_mapping d2 !! key) as [v2|] eqn:H2;
    destruct (acc !! key); cbn; try done.
  all: by rewrite (Hcompat key v1 v2 H1 H2).
Qed.

Lemma merge_permutation (docs1 docs2 : list (list (string * pyvalue))) :
  docs1 ≡ₚ docs2 ->
  (forall d d', d ∈ docs1 -> d' ∈ docs1 -> compatible d d') ->
  forall acc : pydict,
    foldl (fun acc d => as_mapping d ∪ acc) acc docs1
    = foldl (fun acc d => as_mapping d ∪ acc) acc docs2.
Proof.
  induction 1 as [|d l l' Hperm IH|d1 d2 l|l l' l'' H1 IH1 H2 IH2];
    intros Hcompat acc; cbn [foldl].
  - done.
  - apply IH. intros a b Ha Hb. apply Hcompat; by right.
  - f_equal. apply merge_compatible_swap, Hcompat; set_solver.
  - rewrite IH1 by done. apply IH2.
    intros a b Ha Hb. apply Hcompat; by rewrite H1.
Qed.

(** The lookups of the merge: a key has the value of the last document that
    has it. *)
Lemma merge_in_order_lookup docs key v :
  merge_in_order docs !! key = Some v
  <-> exists j doc,
        docs !! j = Some doc
        /\ as_mapping doc !! key = Some v
        /\ forall j' doc', j < j' -> docs !! j' = Some doc' ->
             as_mapping doc' !! key = None.
Proof.
  induction docs as [|d docs IH] using rev_ind.
  - split; [done|]. by intros (j & doc & Hj & _).
  - rewrite merge_in_order_snoc.
    destruct (as_mapping d !! key) as [w|] eqn:Hd.
    + split.
      * intros [= ->]. exists (length docs), d.
        split; [by rewrite lookup_app_r, Nat.sub_diag|]. split; [done|].
        intros j' doc' Hlt Hj'. apply lookup_lt_Some in Hj'.
        rewrite length_app in Hj'. cbn in Hj'. lia.
      * intros (j & doc & Hj & Hv & Hlast).
        destruct (decide (j = length docs)) as [->|Hne].
        -- rewrite lookup_app_r, Nat.sub_diag in Hj by lia.
           injection Hj as <-. congruence.
        -- pose proof (lookup_lt_Some _ _ _ Hj) as Hlt.
           rewrite length_app in Hlt. cbn in Hlt.
           assert (as_mapping d !! key = None) as Hnone; [|congruence].
           apply (Hlast (length docs) d); [lia|].
           by rewrite lookup_app_r, Nat.sub_diag.
    + rewrite IH. split.
      * intros (j & doc & Hj & Hv & Hlast). exists j, doc.
        split; [by apply lookup_app_l_Some|]. split; [done|].
        intros j' doc' Hlt Hj'.
        destruct (decide (j' < length docs)) as [Hin|Hout].
        -- rewrite lookup_app_l in Hj' by done. by eapply Hlast.
        -- pose proof (lookup_lt_Some _ _ _ Hj') as Hlt'.
           rewrite length_app in Hlt'. cbn in Hlt'.
           replace j' with (length docs) in Hj' by lia.
           rewrite lookup_app_r, Nat.sub_diag in Hj' by lia.
           by injection Hj' as <-.
      * intros (j & doc & Hj & Hv & Hlast).
        destruct (decide (j = length docs)) as [->|Hne].
        -- rewrite lookup_app_r, Nat.sub_diag in Hj by lia.
           injection Hj as <-. congruence.
        -- pose proof (lookup_lt_Some _ _ _ Hj) as Hlt.
           rewrite length_app in Hlt. cbn in Hlt.
           exists j, doc. split; [by rewrite lookup_app_l in Hj by lia|].
           split; [done|]. intros j' doc' Hlt' Hj'.
           apply (Hlast j' doc' Hlt'). by apply lookup_app_l_Some.
Qed.

(** * More on the loop and on a call *)

Section More.

Variable json_loads : string -> option pyvalue.

Local Abbreviation load := (load_repo_data json_loads).
Local Abbreviation loop := (for_urls json_loads).

Local Ltac one_turn e i url ret rest c :=
  rewrite for_urls_cons;
  destruct (urlopen_at e i url) as [reason|[reason|b]] eqn:Hopen;
  [ | | destruct (json_loads b) as [v|] eqn:Hloads;
        [ destruct (dict_update ret v) as [ret'|x'] eqn:Hupd;
          [ destruct (loop e rest (S i) ret' c) as [[r c'] t] eqn:Hrest
          | ]
        | ] ].

(** A loop that completes has read and decoded the body of every URL, and
    its result is [update_all] on the decoded values. *)
Lemma for_urls_ok_inv e urls :
  forall i ret c d,
    (loop e urls i ret c).1.1 = Ok d ->
    exists vs,
      length vs = length urls
      /\ (forall j u, urls !! j = Some u ->
            exists b v, urlopen_at e (i + j) u = Opened (Body b)
                        /\ json_loads b = Some v /\ vs !! j = Some v)
      /\ update_all ret vs = Ok d.
Proof.
  induction urls as [|url rest IH]; intros i ret c d.
  - cbn. intros [= ->]. exists []. by repeat split.
  - one_turn e i url ret rest c; cbn [fst]; try discriminate.
    intros ->. specialize (IH (S i) ret' c d). rewrite Hrest in IH.
    destruct (IH eq_refl) as (vs & Hlen & Hall & Hupdall).
    exists (v :: vs). split; [by cbn; rewrite Hlen|]. split.
    + intros [|j] u Hj.
      * injection Hj as <-. exists b, v. by rewrite Nat.add_0_r.
      * destruct (Hall j u Hj) as (b' & v' & H1 & H2 & H3).
        exists b', v'. by rewrite Nat.add_succ_r.
    + cbn. by rewrite Hupd.
Qed.

(** A loop that raises stopped at one position: the turns before it went
    through, and the exception is the one that turn raises. *)
Lemma for_urls_raise_inv e urls :
  forall i ret c x,
    (loop e urls i ret c).1.1 = Raise x ->
    exists n u vs acc,
      urls !! n = Some u
      /\ length vs = n
      /\ (forall j u', j < n -> urls !! j = Some u' ->
            exists b v, urlopen_at e (i + j) u' = Opened (Body b)
                        /\ json_loads b = Some v /\ vs !! j = Some v)
      /\ update_all ret vs = Ok acc
      /\ raised_at json_loads e (i + n) u acc x.
Proof.
  induction urls as [|url rest IH]; intros i ret c x; [done|].
  one_turn e i url ret rest c; cbn [fst].
  1,2,4,5: intros [= <-]; exists 0, url, [], ret;
    (split; [done|]); (split; [done|]); (split; [intros; lia|]);
    (split; [done|]); unfold raised_at; rewrite Nat.add_0_r, Hopen;
    try rewrite Hloads; done.
  intros ->. specialize (IH (S i) ret' c x). rewrite Hrest in IH.
  destruct (IH eq_refl) as (n & u & vs & acc & Hn & Hlen & Hall & Hacc & Hx).
  exists (S n), u, (v :: vs), acc.
  split; [done|]. split; [by cbn; rewrite Hlen|]. split; [|split].
  - intros [|j] u' Hlt Hj.
    + injection Hj as <-. exists b, v. by rewrite Nat.add_0_r.
    + destruct (Hall j u' ltac:(lia) Hj) as (b' & v' & H1 & H2 & H3).
      exists b', v'. by rewrite Nat.add_succ_r.
  - cbn. by rewrite Hupd.
  - by rewrite Nat.add_succ_r.
Qed.

(** Three calls to the collaborators for a URL that goes through, and at
    most three for the one that does not. *)
Lemma for_urls_trace_length e urls :
  forall i ret c,
    length (loop e urls i ret c).2 <= 3 * length urls
    /\ ((exists d, (loop e urls i ret c).1.1 = Ok d) ->
        length (loop e urls i ret c).2 = 3 * length urls).
Proof.
  induction urls as [|url rest IH]; intros i ret c.
  - cbn. split; [lia|done].
  - one_turn e i url ret rest c; cbn [fst snd length].
    1,2,4,5: split; [lia | by intros [d [=]]].
    specialize (IH (S i) ret' c). rewrite Hrest in IH. cbn [fst snd] in IH.
    destruct IH as [Hle Heq]. split; [lia|].
    intros Hd. rewrite (Heq Hd). lia.
Qed.

(** The same two facts for a first call. *)
Lemma load_ok_inv e d :
  (load e None).1.1 = Ok d ->
  exists vs,
    length vs = length (get_repos e)
    /\ (forall j u, get_repos e !! j = Some u ->
          exists b v, urlopen_at e j u = Opened (Body b)
                      /\ json_loads b = Some v /\ vs !! j = Some v)
    /\ update_all ∅ vs = Ok d.
Proof.
  rewrite load_uncached.
  pose proof (for_urls_ok_inv e (get_repos e) 0 ∅ None d) as Hinv.
  destruct (loop e (get_repos e) 0 ∅ None) as [[[d'|x] c] t]; cbn [fst] in *;
    [|discriminate].
  intros [= ->]. exact (Hinv eq_refl).
Qed.

Lemma load_raise_inv e x :
  (load e None).1.1 = Raise x ->
  exists n u vs acc,
    get_repos e !! n = Some u
    /\ length vs = n
    /\ (forall j u', j < n -> get_repos e !! j = Some u' ->
          exists b v, urlopen_at e j u' = Opened (Body b)
                      /\ json_loads b = Some v /\ vs !! j = Some v)
    /\ update_all ∅ vs = Ok acc
    /\ raised_at json_loads e n u acc x.
Proof.
  rewrite load_uncached.
  pose proof (for_urls_raise_inv e (get_repos e) 0 ∅ None x) as Hinv.
  destruct (loop e (get_repos e) 0 ∅ None) as [[[d'|x'] c] t]; cbn [fst] in *;
    [discriminate|].
  intros [= ->]. exact (Hinv eq_refl).
Qed.

(** When every body decodes to an object, a first call returns and caches
    the documents merged in list order. *)
Lemma load_objects e docs :
  length docs = length (get_repos e) ->
  (forall j u, get_repos e !! j = Some u ->
     exists b d, urlopen_at e j u = Opened (Body b)
                 /\ json_loads b = Some (PyDict d) /\ docs !! j = Some d) ->
  (load e None).1 = (Ok (merge_in_order docs), Some (merge_in_order docs)).
Proof.
  intros Hlen Hall. rewrite load_uncached.
  pose proof (for_urls_values json_loads e (get_repos e) 0 ∅ None
                (map PyDict docs)) as Hrun.
  rewrite update_all_objects in Hrun.
  destruct (loop e (get_repos e) 0 ∅ None) as [[r c] t].
  cbn [fst] in Hrun. rewrite Hrun; [done | by rewrite length_map |].
  intros j u Hj. destruct (Hall j u Hj) as (b & d & Ho & Hl & Hd).
  exists b, (PyDict d). rewrite list_lookup_fmap, Hd. done.
Qed.

End More.

(** * Further properties of [load_repo_data] *)

Section Further.

Variable json_loads : string -> option pyvalue.

Local Abbreviation load := (load_repo_data json_loads).
Local Abbreviation loop := (for_urls json_loads).

(** X1. What a call returns is what the cache holds after it; a call that
    raises found the cache unpopulated and leaves it so. *)
Theorem returned_value_is_cached (e : env) (c : option pydict) :
  match (load e c).1.1 with
  | Ok d => (load e c).1.2 = Some d
  | Raise _ => c = None /\ (load e c).1.2 = None
  end.
Proof.
  destruct c as [d|]; [by rewrite load_cached|].
  by destruct (load_first_outcome json_loads e) as [(x & t & ->)|(d & t & ->)].
Qed.

(** X2. A call makes no call to a collaborator exactly when it found the
    cache populated. *)
Theorem silent_iff_cached (e : env) (c : option pydict) :
  (load e c).2 = [] <-> is_Some c.
Proof.
  destruct c as [d|].
  - rewrite load_cached. split; [eauto|done].
  - rewrite load_uncached.
    destruct (loop e (get_repos e) 0 ∅ None) as [[[d|x] c] t]; cbn [snd];
      (split; [discriminate | by intros [? [=]]]).
Qed.

(** X3. A first call that returns has read and decoded the body of every
    URL of the list, and returns the values merged in list order: no URL is
    left out of a result. *)
Theorem completed_load_fetched_every_url (e : env) (d : pydict) :
  (load e process_start).1.1 = Ok d ->
  exists vs,
    length vs = length (get_repos e)
    /\ (forall j u, get_repos e !! j = Some u ->
          exists b v, urlopen_at e j u = Opened (Body b)
                      /\ json_loads b = Some v /\ vs !! j = Some v)
    /\ update_all ∅ vs = Ok d.
Proof. apply load_ok_inv. Qed.

(** X4. The exception of a first call is the one raised at the first
    position that does not go through: every URL before it was read,
    decoded and merged, and the exception is the transport's own, the
    codec's, or the one [dict.update] raises on the decoded value. *)
Theorem exception_comes_from_first_failure (e : env) (x : exn) :
  (load e process_start).1.1 = Raise x ->
  exists n u vs acc,
    get_repos e !! n = Some u
    /\ length vs = n
    /\ (forall j u', j < n -> get_repos e !! j = Some u' ->
          exists b v, urlopen_at e j u' = Opened (Body b)
                      /\ json_loads b = Some v /\ vs !! j = Some v)
    /\ update_all ∅ vs = Ok acc
    /\ raised_at json_loads e n u acc x.
Proof. apply load_raise_inv. Qed.

(** X5. What comes after a position whose fetch or parse fails has no
    influence: two worlds that agree up to that position give the same
    result, cache and trace, whatever URLs follow in either list. *)
Theorem urls_after_failure_are_irrelevant (e1 e2 : env)
    (pre post1 post2 : list string) (u : string) :
  get_repos e1 = pre ++ u :: post1 ->
  get_repos e2 = pre ++ u :: post2 ->
  (forall j u', (pre ++ [u]) !! j = Some u' ->
     urlopen_at e1 j u' = urlopen_at e2 j u') ->
  fails_at json_loads e1 (length pre) u ->
  load e1 process_start = load e2 process_start.
Proof.
  intros H1 H2 Hsame Hfail. unfold process_start.
  rewrite !load_uncached, H1, H2, !for_urls_app.
  rewrite <- (for_urls_ext json_loads e1 e2 pre 0 ∅ None).
  2:{ intros j u' Hj. apply Hsame. by apply lookup_app_l_Some. }
  destruct (loop e1 pre 0 ∅ None) as [[[acc|x] c] t]; [|done].
  rewrite !for_urls_cons. cbn [Nat.add].
  rewrite <- (Hsame (length pre) u).
  2:{ rewrite lookup_app_r, Nat.sub_diag; [done|lia]. }
  unfold fails_at in Hfail.
  destruct (urlopen_at e1 (length pre) u) as [?|[?|b]]; try done.
  by rewrite Hfail.
Qed.

(** X6. One position whose fetch or parse fails is enough for a first call
    not to return: it raises, and the cache stays unpopulated. *)
Theorem any_failure_aborts_load (e : env) (i : nat) (u : string) :
  get_repos e !! i = Some u ->
  fails_at json_loads e i u ->
  exists x, (load e process_start).1 = (Raise x, None).
Proof.
  intros Hi Hfail. unfold process_start.
  destruct (load_first_outcome json_loads e) as [(x & t & Hrun)|(d & t & Hrun)].
  - exists x. by rewrite Hrun.
  - exfalso.
    destruct (load_ok_inv json_loads e d) as (vs & _ & Hall & _).
    { by rewrite Hrun. }
    destruct (Hall i u Hi) as (b & v & Hopen & Hloads & _).
    unfold fails_at in Hfail. rewrite Hopen in Hfail. congruence.
Qed.

(** X7. A body that decodes to [null], a boolean, a number or a non-empty
    string is enough for a first call not to return, wherever it stands in
    the list: the call raises and the cache stays unpopulated. *)
Theorem scalar_document_aborts_load (e : env) (i : nat) (u b : string)
    (v : pyvalue) :
  get_repos e !! i = Some u ->
  urlopen_at e i u = Opened (Body b) ->
  json_loads b = Some v ->
  refused_scalar v = true ->
  exists x, (load e process_start).1 = (Raise x, None).
Proof.
  intros Hi Hopen Hloads Hscalar. unfold process_start.
  destruct (load_first_outcome json_loads e) as [(x & t & Hrun)|(d & t & Hrun)].
  - exists x. by rewrite Hrun.
  - exfalso.
    destruct (load_ok_inv json_loads e d) as (vs & _ & Hall & Hupd).
    { by rewrite Hrun. }
    destruct (Hall i u Hi) as (b' & v' & Hopen' & Hloads' & Hv).
    assert (b' = b) as -> by congruence. assert (v' = v) as -> by congruence.
    destruct (update_all_ok_lookup vs ∅ d i v Hupd Hv) as (acc & r & Hok & _).
    destruct (dict_update_refused acc v Hscalar) as [x Hx]. congruence.
Qed.

(** X8. When every body decodes to an object and any two documents agree
    on the keys they share, the order of the URL list does not matter: a
    world that serves the same documents in another order gives the same
    result and the same cache. *)
Theorem compatible_documents_commute (e1 e2 : env)
    (docs1 docs2 : list (list (string * pyvalue))) :
  length docs1 = length (get_repos e1) ->
  (forall j u, get_repos e1 !! j = Some u ->
     exists b d, urlopen_at e1 j u = Opened (Body b)
                 /\ json_loads b = Some (PyDict d) /\ docs1 !! j = Some d) ->
  length docs2 = length (get_repos e2) ->
  (forall j u, get_repos e2 !! j = Some u ->
     exists b d, urlopen_at e2 j u = Opened (Body b)
                 /\ json_loads b = Some (PyDict d) /\ docs2 !! j = Some d) ->
  docs1 ≡ₚ docs2 ->
  (forall d d', d ∈ docs1 -> d' ∈ docs1 -> compatible d d') ->
  (load e1 process_start).1 = (load e2 process_start).1.
Proof.
  intros Hlen1 Hall1 Hlen2 Hall2 Hperm Hcompat. unfold process_start.
  rewrite (load_objects json_loads e1 docs1 Hlen1 Hall1).
  rewrite (load_objects json_loads e2 docs2 Hlen2 Hall2).
  unfold merge_in_order. by rewrite (merge_permutation docs1 docs2 Hperm Hcompat).
Qed.

(** X9. When every body decodes to an object, a key of the result has the
    value it has in the last document that holds it, and the result has no
    key that no document holds. *)
Theorem later_document_wins (e : env) (docs : list (list (string * pyvalue))) :
  length docs = length (get_repos e) ->
  (forall j u, get_repos e !! j = Some u ->
     exists b d, urlopen_at e j u = Opened (Body b)
                 /\ json_loads b = Some (PyDict d) /\ docs !! j = Some d) ->
  exists ret,
    (load e process_start).1.1 = Ok ret
    /\ forall key v,
         ret !! key = Some v
         <-> exists j doc,
               docs !! j = Some doc
               /\ as_mapping doc !! key = Some v
               /\ forall j' doc', j < j' -> docs !! j' = Some doc' ->
                    as_mapping doc' !! key = None.
Proof.
  intros Hlen Hall. exists (merge_in_order docs). unfold process_start.
  rewrite (load_objects json_loads e docs Hlen Hall). split; [done|].
  apply merge_in_order_lookup.
Qed.

(** X10. A first call that returns has every key of every object it read
    in its result: merging never drops a key. *)
Theorem completed_load_keeps_every_key (e : env) (ret : pydict) (j : nat)
    (u b : string) (doc : list (string * pyvalue)) (k : string) (v : pyvalue) :
  (load e process_start).1.1 = Ok ret ->
  get_repos e !! j = Some u ->
  urlopen_at e j u = Opened (Body b) ->
  json_loads b = Some (PyDict doc) ->
  (k, v) ∈ doc ->
  is_Some (ret !! KStr k).
Proof.
  intros Hret Hj Hopen Hloads Hin.
  destruct (load_ok_inv json_loads e ret Hret) as (vs & _ & Hall & Hupd).
  destruct (Hall j u Hj) as (b' & v' & Hopen' & Hloads' & Hv).
  assert (b' = b) as -> by congruence.
  assert (v' = PyDict doc) as -> by congruence.
  destruct (update_all_ok_lookup vs ∅ ret j _ Hupd Hv) as (acc & r & Hok & Hsub).
  rewrite dict_update_object in Hok. injection Hok as <-.
  apply elem_of_dom, Hsub. rewrite dom_union_L.
  apply elem_of_union_l. by eapply as_mapping_dom.
Qed.

(** X11. A call makes at most one call to the configuration and three per
    URL (request, read, decode); a first call that returns makes exactly
    that many. *)
Theorem collaborator_calls_are_bounded (e : env) (c : option pydict) :
  length (load e c).2 <= 1 + 3 * length (get_repos e)
  /\ ((exists d, (load e process_start).1.1 = Ok d) ->
      length (load e process_start).2 = 1 + 3 * length (get_repos e)).
Proof.
  pose proof (for_urls_trace_length json_loads e (get_repos e) 0 ∅ None)
    as [Hle Heq].
  split.
  - destruct c as [d|]; [rewrite load_cached; cbn; lia|].
    rewrite load_uncached.
    destruct (loop e (get_repos e) 0 ∅ None) as [[[d|x] c'] t];
      cbn [snd length] in *; lia.
  - unfold process_start. rewrite load_uncached.
    destruct (loop e (get_repos e) 0 ∅ None) as [[[d|x] c'] t];
      cbn [fst snd length] in *.
    + intros _. rewrite Heq; [lia | eauto].
    + by intros [d [=]].
Qed.

(** X12. Calls that raise leave nothing behind: after any number of them
    the next call is a first call, whatever the earlier ones had fetched. *)
Theorem failed_calls_leave_no_state (es : list env) (e : env) :
  Forall (fun run => exists x, run.1.1 = Raise x)
    (run_calls json_loads es process_start) ->
  run_calls json_loads (es ++ [e]) process_start
  = run_calls json_loads es process_start ++ [load e process_start].
Proof.
  unfold process_start. induction es as [|e0 es IH]; [done|].
  cbn [run_calls app]. intros Hall. apply Forall_cons in Hall as [[x Hx] Hrest].
  destruct (load_first_outcome json_loads e0) as [(y & t & Hrun)|(d & t & Hrun)];
    rewrite Hrun in *; cbn [fst snd] in *; [|discriminate].
  f_equal. by apply IH.
Qed.

End Further.

(** X13. [ret.update] with an object whose keys are distinct: every pair of
    the object can be looked up afterwards, and every other key is as it
    was. *)
Theorem dict_update_object_lookup (ret : pydict) (d : list (string * pyvalue)) :
  NoDup (d.*1) ->
  exists r,
    dict_update ret (PyDict d) = Ok r
    /\ (forall k v, (k, v) ∈ d -> r !! KStr k = Some v)
    /\ (forall key, (forall k, k ∈ d.*1 -> key <> KStr k) ->
          r !! key = ret !! key).
Proof.
  intros Hnd. exists (as_mapping d ∪ ret).
  split; [apply dict_update_object|]. split.
  - intros k v Hin. apply lookup_union_Some_l.
    by apply as_mapping_lookup_nodup.
  - intros key Hkey. apply lookup_union_r.
    destruct (as_mapping d !! key) as [v|] eqn:Hl; [|done].
    apply as_mapping_lookup_string in Hl as (k & -> & Hin).
    destruct (Hkey k); [|done]. apply list_elem_of_fmap. by exists (k, v).
Qed.

(** X14. A JSON array of [[key, value]] pairs with string keys is taken by
    [ret.update] exactly as the object with those pairs: such a body is
    merged without complaint. *)
Theorem array_of_pairs_acts_as_object (ret : pydict)
    (d : list (string * pyvalue)) :
  dict_update ret (PyList (map pair_item d)) = dict_update ret (PyDict d).
Proof.
  cbn [dict_update py_iter]. revert ret.
  induction d as [|[k v] d IH]; intros ret; [done|].
  cbn [map update_from_seq foldl]. apply IH.
Qed.

(** * The further properties on the example worlds *)

Lemma completed_load_fetched_every_url_witness :
  (load_repo_data demo_loads env_A_B process_start).1.1
  = Ok {[ KStr "x" := PyInt 2; KStr "y" := PyInt 3 ]}
  /\ exists vs,
       length vs = length (get_repos env_A_B)
       /\ update_all ∅ vs = Ok {[ KStr "x" := PyInt 2; KStr "y" := PyInt 3 ]}.
Proof.
  assert ((load_repo_data demo_loads env_A_B process_start).1.1
          = Ok {[ KStr "x" := PyInt 2; KStr "y" := PyInt 3 ]}) as Hrun
    by (vm_compute; reflexivity).
  split; [exact Hrun|].
  destruct (completed_load_fetched_every_url demo_loads env_A_B _ Hrun)
    as (vs & Hlen & _ & Hupd).
  exists vs. split; [exact Hlen | exact Hupd].
Defined.

Lemma exception_comes_from_first_failure_witness :
  (load_repo_data demo_loads env_B_down process_start).1.1
  = Raise (TransportError "connection refused")
  /\ exists n u acc,
       get_repos env_B_down !! n = Some u
       /\ raised_at demo_loads env_B_down n u acc
            (TransportError "connection refused").
Proof.
  assert ((load_repo_data demo_loads env_B_down process_start).1.1
          = Raise (TransportError "connection refused")) as Hrun
    by (vm_compute; reflexivity).
  split; [exact Hrun|].
  destruct (exception_comes_from_first_failure demo_loads env_B_down _ Hrun)
    as (n & u & vs & acc & Hn & _ & _ & _ & Hx).
  exists n, u, acc. split; [exact Hn | exact Hx].
Defined.

Lemma urls_after_failure_are_irrelevant_witness :
  fails_at demo_loads env_not_json 0 "A"
  /\ load_repo_data demo_loads env_not_json process_start
     = load_repo_data demo_loads env_not_json_then_B process_start.
Proof.
  assert (fails_at demo_loads env_not_json 0 "A") as Hfail
    by (vm_compute; reflexivity).
  split; [exact Hfail|].
  apply (urls_after_failure_are_irrelevant demo_loads env_not_json
           env_not_json_then_B [] [] ["B"] "A");
    [reflexivity | reflexivity | | exact Hfail].
  intros [|j] u Hj; cbn in Hj; try discriminate; injection Hj as <-;
    reflexivity.
Defined.

Lemma any_failure_aborts_load_witness :
  get_repos env_B_down !! 1 = Some "B"
  /\ fails_at demo_loads env_B_down 1 "B"
  /\ exists x,
       (load_repo_data demo_loads env_B_down process_start).1 = (Raise x, None).
Proof.
  assert (fails_at demo_loads env_B_down 1 "B") as Hfail
    by (vm_compute; exact I).
  split; [reflexivity|]. split; [exact Hfail|].
  apply (any_failure_aborts_load demo_loads env_B_down 1 "B");
    [reflexivity | exact Hfail].
Defined.

Lemma scalar_document_aborts_load_witness :
  demo_loads "42" = Some (PyInt 42)
  /\ refused_scalar (PyInt 42) = true
  /\ exists x,
       (load_repo_data demo_loads env_number process_start).1 = (Raise x, None).
Proof.
  split; [reflexivity|]. split; [reflexivity|].
  apply (scalar_document_aborts_load demo_loads env_number 1 "B" "42"
           (PyInt 42)); reflexivity.
Defined.

Lemma compatible_documents_commute_witness :
  [[("x", PyInt 1)]; [("z", PyInt 4)]] ≡ₚ [[("z", PyInt 4)]; [("x", PyInt 1)]]
  /\ (load_repo_data demo_loads_z env_A_Z process_start).1
     = (load_repo_data demo_loads_z env_Z_A process_start).1.
Proof.
  split; [apply perm_swap|].
  apply (compatible_documents_commute demo_loads_z env_A_Z env_Z_A
           [[("x", PyInt 1)]; [("z", PyInt 4)]]
           [[("z", PyInt 4)]; [("x", PyInt 1)]]).
  - reflexivity.
  - intros [|[|j]] u Hj; cbn in Hj; try discriminate; injection Hj as <-.
    + exists body_x1, [("x", PyInt 1)]. repeat split; vm_compute; reflexivity.
    + exists body_z4, [("z", PyInt 4)]. repeat split; vm_compute; reflexivity.
  - reflexivity.
  - intros [|[|j]] u Hj; cbn in Hj; try discriminate; injection Hj as <-.
    + exists body_z4, [("z", PyInt 4)]. repeat split; vm_compute; reflexivity.
    + exists body_x1, [("x", PyInt 1)]. repeat split; vm_compute; reflexivity.
  - apply perm_swap.
  - intros d d' Hd Hd' key v1 v2 H1 H2.
    apply as_mapping_lookup_string in H1 as (k1 & -> & Hin1).
    apply as_mapping_lookup_string in H2 as (k2 & [= <-] & Hin2).
    repeat match goal with
           | H : _ ∈ _ :: _ |- _ =>
               apply elem_of_cons in H as [H|H]; simplify_eq
           | H : _ ∈ [] |- _ => by apply elem_of_nil in H
           end; reflexivity.
Defined.

Lemma later_document_wins_witness :
  exists ret,
    (load_repo_data demo_loads env_A_B process_start).1.1 = Ok ret
    /\ ret !! KStr "x" = Some (PyInt 2).
Proof.
  destruct (later_document_wins demo_loads env_A_B
              [[("x", PyInt 1)]; [("y", PyInt 3); ("x", PyInt 2)]])
    as (ret & Hret & Hlookup).
  - reflexivity.
  - intros [|[|j]] u Hj; cbn in Hj; try discriminate; injection Hj as <-.
    + exists body_x1, [("x", PyInt 1)]. repeat split; vm_compute; reflexivity.
    + exists body_x2_y3, [("y", PyInt 3); ("x", PyInt 2)].
      repeat split; vm_compute; reflexivity.
  - exists ret. split; [exact Hret|]. apply Hlookup.
    exists 1, [("y", PyInt 3); ("x", PyInt 2)].
    split; [reflexivity|]. split; [vm_compute; reflexivity|].
    intros [|[|[|j']]] doc' Hlt Hj'; cbn in Hj'; try discriminate; lia.
Defined.

Lemma completed_load_keeps_every_key_witness :
  (load_repo_data demo_loads env_A_B process_start).1.1
  = Ok {[ KStr "x" := PyInt 2; KStr "y" := PyInt 3 ]}
  /\ ("x", PyInt 1) ∈ [("x", PyInt 1)]
  /\ is_Some (({[ KStr "x" := PyInt 2; KStr "y" := PyInt 3 ]} : pydict)
                !! KStr "x").
Proof.
  assert ((load_repo_data demo_loads env_A_B process_start).1.1
          = Ok {[ KStr "x" := PyInt 2; KStr "y" := PyInt 3 ]}) as Hrun
    by (vm_compute; reflexivity).
  assert (("x", PyInt 1) ∈ [("x", PyInt 1)]) as Hin by left.
  split; [exact Hrun|]. split; [exact Hin|].
  apply (completed_load_keeps_every_key demo_loads env_A_B _ 0 "A" body_x1
           [("x", PyInt 1)] "x" (PyInt 1) Hrun);
    [reflexivity | reflexivity | vm_compute; reflexivity | exact Hin].
Defined.

Lemma failed_calls_leave_no_state_witness :
  run_calls demo_loads ([env_B_down; env_not_json] ++ [env_A_B]) process_start
  = run_calls demo_loads [env_B_down; env_not_json] process_start
    ++ [load_repo_data demo_loads env_A_B process_start].
Proof.
  apply (failed_calls_leave_no_state demo_loads [env_B_down; env_not_json]
           env_A_B).
  vm_compute. repeat (constructor; [eexists; reflexivity|]). constructor.
Defined.

Lemma dict_update_object_lookup_witness :
  NoDup ([("x", PyInt 2); ("y", PyInt 3)].*1)
  /\ exists r,
       dict_update {[ KStr "x" := PyInt 1; KStr "w" := PyInt 0 ]}
         (PyDict [("x", PyInt 2); ("y", PyInt 3)]) = Ok r
       /\ r !! KStr "x" = Some (PyInt 2)
       /\ r !! KStr "w" = Some (PyInt 0).
Proof.
  assert (NoDup ([("x", PyInt 2); ("y", PyInt 3)].*1)) as Hnd.
  { apply (bool_decide_unpack _). vm_compute. exact I. }
  split; [exact Hnd|].
  destruct (dict_update_object_lookup
              {[ KStr "x" := PyInt 1; KStr "w" := PyInt 0 ]}
              [("x", PyInt 2); ("y", PyInt 3)] Hnd)
    as (r & Hr & Hin & Hout).
  exists r. split; [exact Hr|]. split.
  - apply Hin. left.
  - rewrite Hout; [vm_compute; reflexivity|].
    intros k Hk [= <-]. cbn in Hk.
    repeat (apply elem_of_cons in Hk as [Hk|Hk]; [discriminate|]).
    by apply elem_of_nil in Hk.
Defined.
